(** * ParOptProblem: the problem-definition base class of the parallel optimizer

    A shallow embedding of [src/ParOptProblem.h].  The class keeps five
    fields (the communicator and four sizes); its member functions read and
    write those fields, write through [int*] output arguments and call into
    the vector class.  Member functions are embedded as computations in a
    small state-and-failure monad over the object and the heap it runs
    against.  The pure virtual member functions have no body in the header
    and are not embedded. *)

From Stdlib Require Import ZArith List.
From stdpp Require Import gmap list.

Set Implicit Arguments.
Set Default Proof Using "Type".

Local Open Scope Z_scope.

(** ** Machine data *)

(** A C++ [int].  The class only stores and copies [int] values (there is no
    arithmetic on them), so no wrap-around is ever applied. *)
Definition int := Z.

(** Addresses of heap objects, and pointers that may be null. *)
Definition loc := positive.

Inductive ptr : Type :=
| NULL
| Ptr (l : loc).

Arguments Ptr l%_positive.

Definition is_null (p : ptr) : bool :=
  match p with NULL => true | Ptr _ => false end.

Section ParOptProblem.

(** [MPI_Comm] comes from the MPI headers and [ParOptScalar] from
    [ParOptVec.h]; the class treats both as opaque values.  [szero] is the
    scalar a fresh array is filled with. *)
Variable MPI_Comm : Type.
Variable ParOptScalar : Type.
Variable szero : ParOptScalar.

(** ** The object and the heap *)

(** The protected fields of [ParOptProblem]. *)
Record ParOptProblem : Type := mkParOptProblem {
  comm : MPI_Comm;
  nvars : int;
  ncon : int;
  nwcon : int;
  nwblock : int
}.

(** Modelled from the spec: the vector class declared in [ParOptVec.h],
    which the header includes but which is not among the sources.  The spec
    describes a distributed vector as an array of a given local length bound
    to a process group.  [vsize] is the length the vector was created with
    and [vx] its local entries. *)
Record ParOptVec : Type := mkParOptVec {
  vcomm : MPI_Comm;
  vsize : int;
  vx : list ParOptScalar
}.

(** The heap holds the objects the member functions receive by pointer:
    [int] cells, [ParOptScalar] arrays and vectors. *)
Record Heap : Type := mkHeap {
  ints : gmap loc int;
  scalars : gmap loc (list ParOptScalar);
  vecs : gmap loc ParOptVec
}.

Record State : Type := mkState {
  this : ParOptProblem;
  heap : Heap
}.

(** ** The monad of member functions

    A member function either fails (it dereferences a pointer that is null
    or does not point to a live object of the right type) or returns a value
    and the next state. *)
Definition M (A : Type) : Type := State -> option (A * State).

Definition ret {A} (a : A) : M A := fun s => Some (a, s).

Definition bind {A B} (m : M A) (k : A -> M B) : M B :=
  fun s => match m s with
           | Some (a, s') => k a s'
           | None => None
           end.

Definition fail {A} : M A := fun _ => None.

Notation "'do' x <- m ; k" := (bind m (fun x => k))
  (at level 10, x name, m at level 100, k at level 200).
Notation "'exec' m ; k" := (bind m (fun _ => k))
  (at level 10, m at level 100, k at level 200).

Definition get_this : M ParOptProblem := fun s => Some (this s, s).

Definition modify_this (f : ParOptProblem -> ParOptProblem) : M unit :=
  fun s => Some (tt, {| this := f (this s); heap := heap s |}).

Definition get_heap : M Heap := fun s => Some (heap s, s).

Definition put_heap (h : Heap) : M unit :=
  fun s => Some (tt, {| this := this s; heap := h |}).

(** Field assignments [nvars = v;] and so on. *)
Definition set_nvars (v : int) (p : ParOptProblem) : ParOptProblem :=
  {| comm := comm p; nvars := v; ncon := ncon p;
     nwcon := nwcon p; nwblock := nwblock p |}.
Definition set_ncon (v : int) (p : ParOptProblem) : ParOptProblem :=
  {| comm := comm p; nvars := nvars p; ncon := v;
     nwcon := nwcon p; nwblock := nwblock p |}.
Definition set_nwcon (v : int) (p : ParOptProblem) : ParOptProblem :=
  {| comm := comm p; nvars := nvars p; ncon := ncon p;
     nwcon := v; nwblock := nwblock p |}.
Definition set_nwblock (v : int) (p : ParOptProblem) : ParOptProblem :=
  {| comm := comm p; nvars := nvars p; ncon := ncon p;
     nwcon := nwcon p; nwblock := v |}.

(** [*p = v] for an [int *p]: defined when [p] points to a live [int]. *)
Definition store_int (p : ptr) (v : int) : M unit :=
  match p with
  | NULL => fail
  | Ptr l =>
      do h <- get_heap;
      match ints h !! l with
      | Some _ =>
          put_heap {| ints := <[l := v]> (ints h);
                      scalars := scalars h; vecs := vecs h |}
      | None => fail
      end
  end.

(** [if (p){ body }] *)
Definition if_nonnull (p : ptr) (body : M unit) : M unit :=
  if is_null p then ret tt else body.

(** ** Constructors *)

(** [ParOptProblem( MPI_Comm _comm )] *)
Definition ParOptProblem_comm (_comm : MPI_Comm) : ParOptProblem :=
  {| comm := _comm; nvars := 0; ncon := 0; nwcon := 0; nwblock := 0 |}.

(** [ParOptProblem( MPI_Comm _comm, int _nvars, int _ncon, int _nwcon,
    int _nwblock )] *)
Definition ParOptProblem_sizes (_comm : MPI_Comm)
    (_nvars _ncon _nwcon _nwblock : int) : ParOptProblem :=
  {| comm := _comm; nvars := _nvars; ncon := _ncon;
     nwcon := _nwcon; nwblock := _nwblock |}.

(** ** Communicator and sizes *)

Definition getMPIComm : M MPI_Comm :=
  do p <- get_this; ret (comm p).

Definition setProblemSizes (_nvars _ncon _nwcon _nwblock : int) : M unit :=
  exec modify_this (set_nvars _nvars);
  exec modify_this (set_ncon _ncon);
  exec modify_this (set_nwcon _nwcon);
  modify_this (set_nwblock _nwblock).

Definition getProblemSizes (_nvars _ncon _nwcon _nwblock : ptr) : M unit :=
  exec if_nonnull _nvars (do p <- get_this; store_int _nvars (nvars p));
  exec if_nonnull _ncon (do p <- get_this; store_int _ncon (ncon p));
  exec if_nonnull _nwcon (do p <- get_this; store_int _nwcon (nwcon p));
  if_nonnull _nwblock (do p <- get_this; store_int _nwblock (nwblock p)).

(** ** The vector factory *)

Definition set_vecs (v : gmap loc ParOptVec) (h : Heap) : Heap :=
  {| ints := ints h; scalars := scalars h; vecs := v |}.

(** Modelled from the spec: the constructor [ParOptBasicVec(comm, n)],
    declared in [ParOptVec.h], which is not among the sources.  The spec
    says the factory allocates a new distributed vector of the requested
    length bound to the process group.  The spec does not describe the
    initial entries; they are taken to be [szero].  [new] yields an address
    at which no vector lived before. *)
Definition new_ParOptBasicVec (_comm : MPI_Comm) (n : int) : M ptr :=
  do h <- get_heap;
  let l := fresh (dom (vecs h)) in
  exec put_heap
    (set_vecs (<[l := {| vcomm := _comm; vsize := n;
                         vx := replicate (Z.to_nat n) szero |}]> (vecs h)) h);
  ret (Ptr l).

Definition createDesignVec : M ptr :=
  do p <- get_this; new_ParOptBasicVec (comm p) (nvars p).

Definition createConstraintVec : M ptr :=
  do p <- get_this; new_ParOptBasicVec (comm p) (nwcon p).

(** ** Hessian hooks: the bodies the base class provides *)

Definition evalHessianDiag (x z zw hdiag : ptr) : M int :=
  ret 0.

Definition setUpHessianPrecon (x z zw : ptr) : M int :=
  ret 0.

(** Entry-by-entry copy of [src] over [dst]; [dst] keeps its length. *)
Fixpoint copy_entries (dst src : list ParOptScalar) : list ParOptScalar :=
  match dst, src with
  | _ :: dst', s :: src' => s :: copy_entries dst' src'
  | _, _ => dst
  end.

(** Modelled from the spec: [ParOptVec::copyValues], declared in
    [ParOptVec.h], which is not among the sources.  The spec lists it as the
    value copy of the vector capability set: [self->copyValues(vec)] copies
    the entries of [vec] into [self].  Both pointers must point to live
    vectors. *)
Definition copyValues (self vec : ptr) : M unit :=
  match self, vec with
  | Ptr d, Ptr s =>
      do h <- get_heap;
      match vecs h !! d, vecs h !! s with
      | Some vd, Some vs =>
          put_heap
            (set_vecs (<[d := {| vcomm := vcomm vd; vsize := vsize vd;
                                 vx := copy_entries (vx vd) (vx vs) |}]>
                         (vecs h)) h)
      | _, _ => fail
      end
  | _, _ => fail
  end.

Definition applyHessianPrecon (x z zw vin vout : ptr) : M int :=
  exec copyValues vout vin;
  ret 0.

(** ** Diagnostic hook *)

Definition writeOutput (iter : int) (x : ptr) : M unit :=
  ret tt.

(** ** Sequences of calls

    The member functions of the class that have a body in the header, as
    requests a caller can issue one after the other. *)
Inductive Op : Type :=
| OpCreateDesignVec
| OpCreateConstraintVec
| OpGetMPIComm
| OpSetProblemSizes (_nvars _ncon _nwcon _nwblock : int)
| OpGetProblemSizes (_nvars _ncon _nwcon _nwblock : ptr)
| OpEvalHessianDiag (x z zw hdiag : ptr)
| OpSetUpHessianPrecon (x z zw : ptr)
| OpApplyHessianPrecon (x z zw vin vout : ptr)
| OpWriteOutput (iter : int) (x : ptr).

Definition is_setProblemSizes (o : Op) : bool :=
  match o with OpSetProblemSizes _ _ _ _ => true | _ => false end.

Definition discard {A} (m : M A) : M unit :=
  do _r <- m; ret tt.

Definition call (o : Op) : M unit :=
  match o with
  | OpCreateDesignVec => discard createDesignVec
  | OpCreateConstraintVec => discard createConstraintVec
  | OpGetMPIComm => discard getMPIComm
  | OpSetProblemSizes a b c d => setProblemSizes a b c d
  | OpGetProblemSizes a b c d => getProblemSizes a b c d
  | OpEvalHessianDiag x z zw hdiag => discard (evalHessianDiag x z zw hdiag)
  | OpSetUpHessianPrecon x z zw => discard (setUpHessianPrecon x z zw)
  | OpApplyHessianPrecon x z zw vin vout =>
      discard (applyHessianPrecon x z zw vin vout)
  | OpWriteOutput iter x => writeOutput iter x
  end.

Fixpoint call_all (ops : list Op) : M unit :=
  match ops with
  | [] => ret tt
  | o :: ops' => exec call o; call_all ops'
  end.

End ParOptProblem.

(** A concrete state used in the examples: communicators are numbered,
    scalars are integers; four [int] cells and two vectors of length two
    are live, and the object was built by [ParOptProblem(7, 2, 1, 0, 0)]. *)
Definition example_heap : Heap nat Z :=
  {| ints := <[1%positive := 0]> (<[2%positive := 0]>
               (<[3%positive := 0]> (<[4%positive := 0]> ∅)));
     scalars := ∅;
     vecs := <[1%positive := {| vcomm := 7%nat; vsize := 2; vx := [10; 20] |}]>
               (<[2%positive := {| vcomm := 7%nat; vsize := 2;
                                   vx := [0; 0] |}]> ∅) |}.

Definition example_state : State nat Z :=
  {| this := ParOptProblem_sizes 7%nat 2 1 0 0; heap := example_heap |}.

Definition example_calls : list Op :=
  [ OpGetProblemSizes (Ptr 1) NULL (Ptr 3) NULL;
    OpEvalHessianDiag (Ptr 1) NULL NULL (Ptr 2);
    OpSetUpHessianPrecon (Ptr 1) NULL NULL;
    OpApplyHessianPrecon (Ptr 1) NULL NULL (Ptr 1) (Ptr 2);
    OpWriteOutput 3 (Ptr 1);
    OpCreateDesignVec;
    OpCreateConstraintVec;
    OpGetMPIComm ].

(** ** Descriptions used in the statements *)

Section Descriptions.

Context {MPI_Comm ParOptScalar : Type}.

(** An [int*] argument is usable when it is null or points to a live
    [int]. *)
Definition usable_int_ptr (h : Heap MPI_Comm ParOptScalar) (p : ptr) : Prop :=
  match p with
  | NULL => True
  | Ptr l => is_Some (ints h !! l)
  end.

(** The effect of [if (p){ *p = v; }] on the [int] cells. *)
Definition written (p : ptr) (v : int) (m : gmap loc int) : gmap loc int :=
  match p with
  | NULL => m
  | Ptr l => <[l := v]> m
  end.

(** A computation keeps the view [f] of the object: whenever it returns,
    [f] of the object is what it was before. *)
Definition preserves {A X} (f : ParOptProblem MPI_Comm -> X)
    (m : M MPI_Comm ParOptScalar A) : Prop :=
  forall s a s', m s = Some (a, s') -> f (this s') = f (this s).

(** The four sizes of the descriptor. *)
Definition sizes (p : ParOptProblem MPI_Comm) : int * int * int * int :=
  (nvars p, ncon p, nwcon p, nwblock p).

(** The sizes a sequence of calls leaves behind when it starts from the
    sizes [z]: those of its last [setProblemSizes], or [z] if it has none. *)
Fixpoint sizes_after (ops : list Op) (z : int * int * int * int)
  : int * int * int * int :=
  match ops with
  | [] => z
  | OpSetProblemSizes a b c d :: ops' => sizes_after ops' (a, b, c, d)
  | _ :: ops' => sizes_after ops' z
  end.

(** The number of factory calls in a sequence of calls. *)
Fixpoint factory_calls (ops : list Op) : nat :=
  match ops with
  | [] => 0%nat
  | OpCreateDesignVec :: ops' => S (factory_calls ops')
  | OpCreateConstraintVec :: ops' => S (factory_calls ops')
  | _ :: ops' => factory_calls ops'
  end.

(** A [ParOptVec*] argument that points to a live vector. *)
Definition live_vec_ptr (h : Heap MPI_Comm ParOptScalar) (p : ptr) : Prop :=
  match p with
  | NULL => False
  | Ptr l => is_Some (vecs h !! l)
  end.


(** How a state can differ from an earlier one after calls of the member
    functions: same communicator, same scalar arrays, same live [int]
    cells; every vector that lived is still there with its communicator,
    size and number of entries; every vector that is new is bound to the
    communicator of the object. *)
Definition evolves (s s' : State MPI_Comm ParOptScalar) : Prop :=
  comm (this s') = comm (this s)
  /\ scalars (heap s') = scalars (heap s)
  /\ dom (ints (heap s')) = dom (ints (heap s))
  /\ (forall l v, vecs (heap s) !! l = Some v ->
        exists v', vecs (heap s') !! l = Some v'
                   /\ vcomm v' = vcomm v /\ vsize v' = vsize v
                   /\ length (vx v') = length (vx v))
  /\ (forall l v', vecs (heap s') !! l = Some v' ->
        vecs (heap s) !! l = None -> vcomm v' = comm (this s)).

(** A computation relates the state it starts in to the state it returns
    in by [R]. *)
Definition respects {A} (R : relation (State MPI_Comm ParOptScalar))
    (m : M MPI_Comm ParOptScalar A) : Prop :=
  forall s a s', m s = Some (a, s') -> R s s'.

(** Every live vector is bound to the communicator of the object. *)
Definition vectors_on_comm (s : State MPI_Comm ParOptScalar) : Prop :=
  forall l v, vecs (heap s) !! l = Some v -> vcomm v = comm (this s).

End Descriptions.

(** * Properties *)

Section ParOptProblemProperties.

Context {MPI_Comm ParOptScalar : Type}.

Local Abbreviation State := (State MPI_Comm ParOptScalar).
Local Abbreviation Heap := (Heap MPI_Comm ParOptScalar).

Implicit Types (s : State) (h : Heap) (p : ptr) (l : loc).

Lemma written_is_Some (m : gmap loc int) q v l :
  is_Some (m !! l) -> is_Some (written q v m !! l).
Proof.
  destruct q as [|l']; [done|]. cbn. intros Hl.
  destruct (decide (l' = l)) as [->|Hne].
  - rewrite lookup_insert_eq. eauto.
  - by rewrite lookup_insert_ne.
Qed.

Lemma usable_written h (sc : gmap loc (list ParOptScalar))
    (ve : gmap loc (ParOptVec MPI_Comm ParOptScalar)) p (m : gmap loc int) :
  (forall l, is_Some (ints h !! l) -> is_Some (m !! l)) ->
  usable_int_ptr h p ->
  usable_int_ptr {| ints := m; scalars := sc; vecs := ve |} p.
Proof. destruct p as [|l]; [done|]. cbn. auto. Qed.

(** One guarded store of [getProblemSizes]. *)
Lemma guarded_store_run s p (f : ParOptProblem MPI_Comm -> int) :
  usable_int_ptr (heap s) p ->
  if_nonnull p (bind (@get_this _ _) (fun q => store_int p (f q))) s
  = Some (tt, {| this := this s;
                 heap := {| ints := written p (f (this s)) (ints (heap s));
                            scalars := scalars (heap s);
                            vecs := vecs (heap s) |} |}).
Proof.
  destruct p as [|l]; cbn.
  - intros _. unfold ret. by destruct s as [t []].
  - intros [v Hv]. unfold bind, get_this, get_heap, put_heap. cbn.
    by rewrite Hv.
Qed.

(** What [getProblemSizes] does on usable pointers: it never fails, keeps
    the object, and performs the four guarded stores in order. *)
Lemma getProblemSizes_run s p1 p2 p3 p4 :
  usable_int_ptr (heap s) p1 -> usable_int_ptr (heap s) p2 ->
  usable_int_ptr (heap s) p3 -> usable_int_ptr (heap s) p4 ->
  getProblemSizes p1 p2 p3 p4 s
  = Some (tt, {| this := this s;
                 heap := {| ints :=
                              written p4 (nwblock (this s))
                                (written p3 (nwcon (this s))
                                   (written p2 (ncon (this s))
                                      (written p1 (nvars (this s))
                                         (ints (heap s)))));
                            scalars := scalars (heap s);
                            vecs := vecs (heap s) |} |}).
Proof.
  intros H1 H2 H3 H4. unfold getProblemSizes.
  unfold bind at 1. rewrite guarded_store_run by done. cbn.
  unfold bind at 1.
  rewrite guarded_store_run
    by (apply usable_written with (h := heap s);
        auto using written_is_Some).
  cbn.
  unfold bind at 1.
  rewrite guarded_store_run
    by (apply usable_written with (h := heap s);
        auto using written_is_Some).
  cbn.
  rewrite guarded_store_run
    by (apply usable_written with (h := heap s);
        auto 6 using written_is_Some).
  done.
Qed.

Lemma setProblemSizes_run s nv nc nw nb :
  setProblemSizes nv nc nw nb s
  = Some (tt, {| this := {| comm := comm (this s); nvars := nv; ncon := nc;
                            nwcon := nw; nwblock := nb |};
                 heap := heap s |}).
Proof. reflexivity. Qed.

(** C1: for every four integers, [setProblemSizes] followed by
    [getProblemSizes] with four non-null output pointers (pointing to
    distinct live [int] cells) succeeds, and afterwards each cell holds
    exactly the value that was set for its field. *)
Theorem setProblemSizes_getProblemSizes_roundtrip
    s (nv nc nw nb : int) l1 l2 l3 l4 :
  NoDup [l1; l2; l3; l4] ->
  is_Some (ints (heap s) !! l1) -> is_Some (ints (heap s) !! l2) ->
  is_Some (ints (heap s) !! l3) -> is_Some (ints (heap s) !! l4) ->
  exists s',
    bind (setProblemSizes nv nc nw nb)
         (fun _ => getProblemSizes (Ptr l1) (Ptr l2) (Ptr l3) (Ptr l4)) s
    = Some (tt, s')
    /\ ints (heap s') !! l1 = Some nv
    /\ ints (heap s') !! l2 = Some nc
    /\ ints (heap s') !! l3 = Some nw
    /\ ints (heap s') !! l4 = Some nb.
Proof.
  intros Hnd H1 H2 H3 H4.
  unfold bind. rewrite setProblemSizes_run.
  rewrite getProblemSizes_run by done. cbn.
  eexists. split; [reflexivity|]. cbn.
  apply NoDup_cons in Hnd as [N1 Hnd].
  apply NoDup_cons in Hnd as [N2 Hnd].
  apply NoDup_cons in Hnd as [N3 _].
  assert (l1 <> l2 /\ l1 <> l3 /\ l1 <> l4
          /\ l2 <> l3 /\ l2 <> l4 /\ l3 <> l4) as (?&?&?&?&?&?)
    by set_solver.
  repeat split; by simplify_map_eq.
Qed.

(** C9: [getProblemSizes] tolerates null output pointers.  Whichever of the
    four pointers are null, as long as the others point to live [int]
    cells, the call succeeds, leaves the object, the scalar arrays and the
    vectors as they were, performs exactly the stores through the non-null
    pointers, and leaves every [int] cell that none of the pointers points
    to with its old contents. *)
Theorem getProblemSizes_null_tolerant s p1 p2 p3 p4 :
  usable_int_ptr (heap s) p1 -> usable_int_ptr (heap s) p2 ->
  usable_int_ptr (heap s) p3 -> usable_int_ptr (heap s) p4 ->
  exists s',
    getProblemSizes p1 p2 p3 p4 s = Some (tt, s')
    /\ this s' = this s
    /\ scalars (heap s') = scalars (heap s)
    /\ vecs (heap s') = vecs (heap s)
    /\ ints (heap s')
       = written p4 (nwblock (this s))
           (written p3 (nwcon (this s))
              (written p2 (ncon (this s))
                 (written p1 (nvars (this s)) (ints (heap s)))))
    /\ (forall l, p1 <> Ptr l -> p2 <> Ptr l -> p3 <> Ptr l -> p4 <> Ptr l ->
          ints (heap s') !! l = ints (heap s) !! l).
Proof.
  intros H1 H2 H3 H4. rewrite getProblemSizes_run by done.
  eexists. split; [reflexivity|]. cbn. repeat split.
  intros l N1 N2 N3 N4.
  assert (Hw : forall p v (m : gmap loc int),
             p <> Ptr l -> written p v m !! l = m !! l).
  { intros [|l'] v m Hne; [done|]. cbn.
    apply lookup_insert_ne. congruence. }
  by rewrite !Hw.
Qed.

(** *** Which calls touch the object *)

Section Preservation.

Context {X : Type} (f : ParOptProblem MPI_Comm -> X).

Lemma preserves_ret {A} (a : A) : preserves f (ret (ParOptScalar := ParOptScalar) a).
Proof. intros s b s' [= _ <-]. done. Qed.

Lemma preserves_fail {A} : preserves f (@fail MPI_Comm ParOptScalar A).
Proof. intros s b s' [=]. Qed.

Lemma preserves_bind {A B} (m : M MPI_Comm ParOptScalar A)
    (k : A -> M MPI_Comm ParOptScalar B) :
  preserves f m -> (forall a, preserves f (k a)) -> preserves f (bind m k).
Proof.
  intros Hm Hk s b s'. unfold bind.
  destruct (m s) as [[a s1]|] eqn:E; [|done].
  intros Hb. rewrite (Hk _ _ _ _ Hb). eauto.
Qed.

Lemma preserves_get_this : preserves f (@get_this MPI_Comm ParOptScalar).
Proof. intros s b s' [= _ <-]. done. Qed.

Lemma preserves_get_heap : preserves f (@get_heap MPI_Comm ParOptScalar).
Proof. intros s b s' [= _ <-]. done. Qed.

Lemma preserves_put_heap h : preserves f (put_heap h).
Proof. intros s b s' [= _ <-]. done. Qed.

Lemma preserves_store_int p v :
  preserves f (store_int (MPI_Comm := MPI_Comm) (ParOptScalar := ParOptScalar) p v).
Proof.
  destruct p as [|l]; cbn; [apply preserves_fail|].
  apply preserves_bind; [apply preserves_get_heap|]. intros h.
  destruct (ints h !! l); [apply preserves_put_heap | apply preserves_fail].
Qed.

Lemma preserves_if_nonnull p (m : M MPI_Comm ParOptScalar unit) :
  preserves f m -> preserves f (if_nonnull p m).
Proof. destruct p; cbn; [intros _; apply preserves_ret | done]. Qed.

Lemma preserves_modify_this g :
  (forall q, f (g q) = f q) ->
  preserves f (modify_this (ParOptScalar := ParOptScalar) g).
Proof. intros Hg s b s' [= _ <-]. cbn. apply Hg. Qed.

Lemma preserves_getProblemSizes p1 p2 p3 p4 :
  preserves f (getProblemSizes (MPI_Comm := MPI_Comm)
                 (ParOptScalar := ParOptScalar) p1 p2 p3 p4).
Proof.
  unfold getProblemSizes.
  repeat first
    [ apply preserves_bind | apply preserves_if_nonnull
    | apply preserves_get_this | apply preserves_store_int
    | intro ].
Qed.

Lemma preserves_new_ParOptBasicVec szero c n :
  preserves f (new_ParOptBasicVec (ParOptScalar := ParOptScalar) szero c n).
Proof.
  unfold new_ParOptBasicVec.
  repeat first
    [ apply preserves_bind | apply preserves_get_heap
    | apply preserves_put_heap | apply preserves_ret | intro ].
Qed.

Lemma preserves_copyValues p q :
  preserves f (copyValues (MPI_Comm := MPI_Comm)
                 (ParOptScalar := ParOptScalar) p q).
Proof.
  destruct p as [|d], q as [|b]; cbn; try apply preserves_fail.
  apply preserves_bind; [apply preserves_get_heap|]. intros h.
  destruct (vecs h !! d), (vecs h !! b);
    first [apply preserves_put_heap | apply preserves_fail].
Qed.

(** Every call other than [setProblemSizes] keeps the whole object as far
    as [f] can see; [setProblemSizes] does when [f] ignores the sizes. *)
Lemma preserves_call szero (o : Op) :
  (is_setProblemSizes o = true ->
   forall q v, f (set_nvars v q) = f q /\ f (set_ncon v q) = f q
               /\ f (set_nwcon v q) = f q /\ f (set_nwblock v q) = f q) ->
  preserves f (call (ParOptScalar := ParOptScalar) szero o).
Proof.
  intros Hset.
  destruct o as [| | |a b c d| | | | |]; cbn;
    [ | | | | apply preserves_getProblemSizes | | | | ].
  4: { pose proof (Hset eq_refl) as Hf. unfold setProblemSizes.
       repeat (apply preserves_bind; [|intros _]);
         apply preserves_modify_this; intros q; apply Hf. }
  all: unfold discard, createDesignVec, createConstraintVec, getMPIComm,
         evalHessianDiag, setUpHessianPrecon, applyHessianPrecon, writeOutput;
       repeat first
         [ apply preserves_new_ParOptBasicVec | apply preserves_copyValues
         | apply preserves_ret | apply preserves_get_this
         | apply preserves_bind | intro ].
Qed.

Lemma preserves_call_all szero (ops : list Op) :
  (forall o, o ∈ ops -> is_setProblemSizes o = true ->
   forall q v, f (set_nvars v q) = f q /\ f (set_ncon v q) = f q
               /\ f (set_nwcon v q) = f q /\ f (set_nwblock v q) = f q) ->
  preserves f (call_all (ParOptScalar := ParOptScalar) szero ops).
Proof.
  induction ops as [|o ops IH]; intros Hset; cbn.
  - apply preserves_ret.
  - apply preserves_bind.
    + apply preserves_call. intros Ho. apply (Hset o); [left | done].
    + intros _. apply IH. intros o' Ho'. apply Hset. by right.
Qed.

End Preservation.

(** *** The optional hooks *)

(** C2: for every input, the [evalHessianDiag] of the base class returns 0
    and leaves the state it ran in exactly as it was; in particular the
    vector [hdiag] points to, if any, is the one that was there before. *)
Theorem evalHessianDiag_default_untouched s (x z zw hdiag : ptr) :
  evalHessianDiag x z zw hdiag s = Some (0, s)
  /\ forall r s', evalHessianDiag x z zw hdiag s = Some (r, s') ->
       r = 0
       /\ forall l, hdiag = Ptr l ->
            vecs (heap s') !! l = vecs (heap s) !! l.
Proof.
  split; [reflexivity|]. intros r s' [= <- <-]. done.
Qed.

Lemma copy_entries_same_length (dst src : list ParOptScalar) :
  length dst = length src -> copy_entries dst src = src.
Proof.
  revert src. induction dst as [|d dst IH]; intros [|b src] Hlen;
    cbn in *; try done.
  f_equal. apply IH. congruence.
Qed.

Lemma length_copy_entries (dst src : list ParOptScalar) :
  length (copy_entries dst src) = length dst.
Proof.
  revert src. induction dst as [|d dst IH]; intros [|b src]; cbn; auto.
Qed.

(** C3: the preconditioner hooks of the base class.  [setUpHessianPrecon]
    returns 0 and changes nothing.  [applyHessianPrecon], called with [in]
    and [out] pointing to live vectors of the same length, returns 0;
    afterwards the entries of [out] are the entries [in] had, [in] still has
    them, [out] keeps its communicator and size, and the object, the [int]
    cells, the scalar arrays and every other vector are unchanged. *)
Theorem HessianPrecon_default_identity s (x z zw : ptr) (lin lout : loc)
    (vi vo : ParOptVec MPI_Comm ParOptScalar) :
  vecs (heap s) !! lin = Some vi ->
  vecs (heap s) !! lout = Some vo ->
  length (vx vi) = length (vx vo) ->
  setUpHessianPrecon x z zw s = Some (0, s)
  /\ exists s' vo',
      applyHessianPrecon x z zw (Ptr lin) (Ptr lout) s = Some (0, s')
      /\ vecs (heap s') !! lout = Some vo'
      /\ vx vo' = vx vi
      /\ vcomm vo' = vcomm vo /\ vsize vo' = vsize vo
      /\ (exists vi', vecs (heap s') !! lin = Some vi' /\ vx vi' = vx vi)
      /\ (forall l, l <> lout -> vecs (heap s') !! l = vecs (heap s) !! l)
      /\ this s' = this s
      /\ ints (heap s') = ints (heap s)
      /\ scalars (heap s') = scalars (heap s).
Proof.
  intros Hin Hout Hlen. split; [reflexivity|].
  unfold applyHessianPrecon, copyValues, bind, get_heap, put_heap. cbn.
  rewrite Hout, Hin. cbn.
  rewrite copy_entries_same_length by done.
  eexists _, _. split; [reflexivity|]. cbn.
  split; [apply lookup_insert_eq|]. cbn.
  repeat split.
  - destruct (decide (lin = lout)) as [->|Hne].
    + eexists. split; [apply lookup_insert_eq|done].
    + exists vi. by rewrite lookup_insert_ne.
  - intros l Hl. by rewrite lookup_insert_ne.
Qed.

(** C8: for every iteration number and every [x], the [writeOutput] of the
    base class does nothing: it returns with the state (the object and
    every vector, [x] included) exactly as it was. *)
Theorem writeOutput_default_noop s (iter : int) (x : ptr) :
  writeOutput iter x s = Some (tt, s)
  /\ forall u s', writeOutput iter x s = Some (u, s') ->
       this s' = this s
       /\ forall l, x = Ptr l -> vecs (heap s') !! l = vecs (heap s) !! l.
Proof.
  split; [reflexivity|]. intros u s' Hrun.
  unfold writeOutput, ret in Hrun. inversion Hrun; subst. done.
Qed.

(** *** The vector factory *)

Lemma new_ParOptBasicVec_run szero s (c : MPI_Comm) (n : int) :
  let l := fresh (dom (vecs (heap s))) in
  let v := {| vcomm := c; vsize := n;
              vx := replicate (Z.to_nat n) szero |} in
  new_ParOptBasicVec szero c n s
  = Some (Ptr l, {| this := this s;
                    heap := set_vecs (<[l := v]> (vecs (heap s))) (heap s) |})
  /\ vecs (heap s) !! l = None.
Proof.
  cbn. split; [reflexivity|].
  apply not_elem_of_dom, is_fresh.
Qed.

(** C5: the factory of the base class.  [createDesignVec] returns a pointer
    to a vector that did not exist before the call, bound to the problem's
    communicator and created with length [nvars] ([nvars] entries);
    [createConstraintVec] does the same with length [nwcon].  The call
    leaves the object (which has no field that could keep the pointer), all
    vectors that existed before, the [int] cells and the scalar arrays
    unchanged: the new vector is the caller's. *)
Theorem createVec_default szero s :
  (exists l v s',
      createDesignVec szero s = Some (Ptr l, s')
      /\ vecs (heap s) !! l = None
      /\ vecs (heap s') !! l = Some v
      /\ vcomm v = comm (this s)
      /\ vsize v = nvars (this s)
      /\ length (vx v) = Z.to_nat (nvars (this s))
      /\ this s' = this s
      /\ (forall l', l' <> l -> vecs (heap s') !! l' = vecs (heap s) !! l')
      /\ ints (heap s') = ints (heap s)
      /\ scalars (heap s') = scalars (heap s))
  /\ (exists l v s',
      createConstraintVec szero s = Some (Ptr l, s')
      /\ vecs (heap s) !! l = None
      /\ vecs (heap s') !! l = Some v
      /\ vcomm v = comm (this s)
      /\ vsize v = nwcon (this s)
      /\ length (vx v) = Z.to_nat (nwcon (this s))
      /\ this s' = this s
      /\ (forall l', l' <> l -> vecs (heap s') !! l' = vecs (heap s) !! l')
      /\ ints (heap s') = ints (heap s)
      /\ scalars (heap s') = scalars (heap s)).
Proof.
  split.
  - destruct (new_ParOptBasicVec_run szero s (comm (this s)) (nvars (this s)))
      as [Hrun Hfresh].
    eexists _, _, _. split; [exact Hrun|]. split; [exact Hfresh|]. cbn.
    split; [apply lookup_insert_eq|]. cbn.
    repeat split; [apply length_replicate|].
    intros l' Hl'. by rewrite lookup_insert_ne.
  - destruct (new_ParOptBasicVec_run szero s (comm (this s)) (nwcon (this s)))
      as [Hrun Hfresh].
    eexists _, _, _. split; [exact Hrun|]. split; [exact Hfresh|]. cbn.
    split; [apply lookup_insert_eq|]. cbn.
    repeat split; [apply length_replicate|].
    intros l' Hl'. by rewrite lookup_insert_ne.
Qed.

(** *** Invariants over sequences of calls *)

(** C7: the communicator is fixed at construction.  Whichever constructor
    built the object, after every sequence of calls of the member functions
    of the class ([setProblemSizes] included) that returns, [getMPIComm]
    returns the communicator the constructor was given, and returning it
    changes nothing. *)
Theorem getMPIComm_fixed_at_construction szero (c : MPI_Comm)
    (nv nc nw nb : int) (h : Heap) (ops : list Op) s' :
  (call_all szero ops {| this := ParOptProblem_comm c; heap := h |}
   = Some (tt, s')
   \/ call_all szero ops
        {| this := ParOptProblem_sizes c nv nc nw nb; heap := h |}
      = Some (tt, s')) ->
  getMPIComm s' = Some (c, s').
Proof.
  intros Hrun.
  assert (Hc : comm (this s') = c).
  { assert (Hp : preserves (@comm MPI_Comm)
                   (call_all (ParOptScalar := ParOptScalar) szero ops)).
    { apply preserves_call_all. intros o _ _ q v. done. }
    destruct Hrun as [Hrun|Hrun]; apply Hp in Hrun; exact Hrun. }
  unfold getMPIComm, bind, get_this, ret. by rewrite Hc.
Qed.

(** C10: the communicator-only constructor sets the four sizes to zero, and
    they stay zero over every sequence of calls that contains no
    [setProblemSizes]. *)
Theorem sizes_zero_until_set szero (c : MPI_Comm) (h : Heap)
    (ops : list Op) s' :
  forallb (fun o => negb (is_setProblemSizes o)) ops = true ->
  call_all szero ops {| this := ParOptProblem_comm c; heap := h |}
  = Some (tt, s') ->
  sizes (ParOptProblem_comm c) = (0, 0, 0, 0)
  /\ nvars (this s') = 0 /\ ncon (this s') = 0
  /\ nwcon (this s') = 0 /\ nwblock (this s') = 0.
Proof.
  intros Hops Hrun. split; [reflexivity|].
  assert (Hp : preserves (@sizes MPI_Comm)
                 (call_all (ParOptScalar := ParOptScalar) szero ops)).
  { apply preserves_call_all. intros o Ho Hset.
    rewrite forallb_forall in Hops.
    apply list_elem_of_In, Hops in Ho. rewrite Hset in Ho. done. }
  apply Hp in Hrun. cbn in Hrun. unfold sizes in Hrun.
  by injection Hrun as -> -> -> ->.
Qed.

End ParOptProblemProperties.

(** ** Further properties of the member functions *)

Section FurtherProperties.

Context {MPI_Comm ParOptScalar : Type}.

Local Abbreviation State := (State MPI_Comm ParOptScalar).
Local Abbreviation Heap := (Heap MPI_Comm ParOptScalar).

Implicit Types (s : State) (h : Heap) (p : ptr) (l : loc).

(** *** Sizes *)

Lemma lookup_written p (v : int) (m : gmap loc int) l :
  written p v m !! l
  = match p with
    | Ptr l' => if decide (l' = l) then Some v else m !! l
    | NULL => m !! l
    end.
Proof.
  destruct p as [|l']; [done|]. cbn.
  destruct (decide (l' = l)) as [->|Hne].
  - apply lookup_insert_eq.
  - by apply lookup_insert_ne.
Qed.

(** *** How the state evolves over calls *)

Lemma evolves_refl s : evolves s s.
Proof.
  repeat split; try done.
  - intros l v Hv. eauto.
  - intros l v Hv Hn. congruence.
Qed.

Lemma evolves_trans s1 s2 s3 : evolves s1 s2 -> evolves s2 s3 -> evolves s1 s3.
Proof.
  intros (Hc & Hs & Hi & Hold & Hnew) (Hc' & Hs' & Hi' & Hold' & Hnew').
  repeat split; try congruence.
  - intros l v Hv. destruct (Hold _ _ Hv) as (v2 & Hv2 & ? & ? & ?).
    destruct (Hold' _ _ Hv2) as (v3 & Hv3 & ? & ? & ?).
    exists v3. repeat split; congruence.
  - intros l v3 Hv3 Hn. destruct (vecs (heap s2) !! l) as [v2|] eqn:E2.
    + destruct (Hold' _ _ E2) as (v3' & Hv3' & Hcm & _).
      rewrite <- (Hnew _ _ E2 Hn). congruence.
    + rewrite (Hnew' _ _ Hv3 E2). exact Hc.
Qed.

Section Respects.

Context (R : relation State) (R_refl : forall s, R s s)
        (R_trans : forall s1 s2 s3, R s1 s2 -> R s2 s3 -> R s1 s3).

Lemma respects_ret {A} (a : A) :
  respects R (ret (MPI_Comm := MPI_Comm) (ParOptScalar := ParOptScalar) a).
Proof using R_refl. intros s b s' Hrun. inversion Hrun; subst. apply R_refl. Qed.

Lemma respects_get_this : respects R (@get_this MPI_Comm ParOptScalar).
Proof using R_refl. intros s b s' Hrun. inversion Hrun; subst. apply R_refl. Qed.

Lemma respects_bind {A B} (m : M MPI_Comm ParOptScalar A)
    (k : A -> M MPI_Comm ParOptScalar B) :
  respects R m -> (forall a, respects R (k a)) -> respects R (bind m k).
Proof using R_trans.
  intros Hm Hk s b s'. unfold bind.
  destruct (m s) as [[a s1]|] eqn:E; [|done].
  intros Hb. eapply R_trans; [eapply Hm, E | eapply Hk, Hb].
Qed.

Lemma respects_if_nonnull p (m : M MPI_Comm ParOptScalar unit) :
  respects R m -> respects R (if_nonnull p m).
Proof using R_refl. destruct p; cbn; [intros _; apply respects_ret | done]. Qed.

End Respects.

Lemma store_int_evolves p (v : int) :
  respects evolves
    (store_int (MPI_Comm := MPI_Comm) (ParOptScalar := ParOptScalar) p v).
Proof.
  intros s u s'. destruct p as [|l]; [done|].
  unfold store_int, bind, get_heap, put_heap. cbn.
  destruct (ints (heap s) !! l) as [w|] eqn:E; [|done].
  intros Hrun. inversion Hrun; subst.
  repeat split; cbn; try done.
  - rewrite dom_insert_L. apply (elem_of_dom_2 (D := gset loc)) in E.
    by apply subseteq_union_1_L, singleton_subseteq_l.
  - intros l' v' Hv'. eauto.
  - intros l' v' Hv' Hn. congruence.
Qed.

Lemma modify_sizes_evolves (g : ParOptProblem MPI_Comm -> ParOptProblem MPI_Comm) :
  (forall q, comm (g q) = comm q) ->
  respects evolves (modify_this (ParOptScalar := ParOptScalar) g).
Proof.
  intros Hg s u s' Hrun. inversion Hrun; subst.
  repeat split; cbn; try done.
  - intros l' v' Hv'. eauto.
  - intros l' v' Hv' Hn. congruence.
Qed.

Lemma new_ParOptBasicVec_evolves szero (g : ParOptProblem MPI_Comm -> int) :
  respects evolves
    (bind (@get_this MPI_Comm ParOptScalar)
          (fun q => new_ParOptBasicVec szero (comm q) (g q))).
Proof.
  intros s a s' Hrun.
  change (new_ParOptBasicVec szero (comm (this s)) (g (this s)) s
          = Some (a, s')) in Hrun.
  destruct (new_ParOptBasicVec_run szero s (comm (this s)) (g (this s)))
    as [Hnew Hfresh].
  cbv zeta in Hnew, Hfresh. rewrite Hnew in Hrun.
  inversion Hrun; subst.
  repeat split; cbn; try done.
  - intros l v Hv. exists v. rewrite lookup_insert_ne by congruence. done.
  - intros l v' Hv' Hn.
    destruct (decide (fresh (dom (vecs (heap s))) = l)) as [<-|Hne].
    + rewrite lookup_insert_eq in Hv'. by inversion Hv'.
    + rewrite lookup_insert_ne in Hv' by done. congruence.
Qed.

Lemma copyValues_evolves p q :
  respects evolves
    (copyValues (MPI_Comm := MPI_Comm) (ParOptScalar := ParOptScalar) p q).
Proof.
  intros s u s'. destruct p as [|d], q as [|b]; try done.
  unfold copyValues, bind, get_heap, put_heap. cbn.
  destruct (vecs (heap s) !! d) as [vd|] eqn:Ed; [|done].
  destruct (vecs (heap s) !! b) as [vb|] eqn:Eb; [|done].
  intros Hrun. inversion Hrun; subst.
  repeat split; cbn; try done.
  - intros l v Hv. destruct (decide (d = l)) as [<-|Hne].
    + rewrite lookup_insert_eq. eexists. split; [done|]. cbn.
      rewrite length_copy_entries.
      assert (v = vd) as -> by congruence. done.
    + rewrite lookup_insert_ne by done. eauto.
  - intros l v' Hv' Hn. destruct (decide (d = l)) as [<-|Hne].
    + congruence.
    + rewrite lookup_insert_ne in Hv' by done. congruence.
Qed.

Lemma call_evolves szero (o : Op) :
  respects (@evolves MPI_Comm ParOptScalar) (call szero o).
Proof.
  pose proof evolves_refl as Hr. pose proof evolves_trans as Ht.
  destruct o; cbn; unfold discard.
  - apply respects_bind; [done| |intros ?; by apply respects_ret].
    apply new_ParOptBasicVec_evolves with (g := @nvars MPI_Comm).
  - apply respects_bind; [done| |intros ?; by apply respects_ret].
    apply new_ParOptBasicVec_evolves with (g := @nwcon MPI_Comm).
  - repeat (apply respects_bind; [done| |intros ?]);
      first [by apply respects_get_this | by apply respects_ret].
  - unfold setProblemSizes.
    repeat (apply respects_bind; [done| |intros ?]);
      by apply modify_sizes_evolves.
  - unfold getProblemSizes.
    repeat (apply respects_bind; [done| |intros ?]);
      (apply respects_if_nonnull; [done|]);
      (apply respects_bind; [done| by apply respects_get_this |intros ?]);
      apply store_int_evolves.
  - apply respects_bind; [done| |intros ?]; by apply respects_ret.
  - apply respects_bind; [done| |intros ?]; by apply respects_ret.
  - unfold applyHessianPrecon.
    apply respects_bind; [done| |intros ?; by apply respects_ret].
    apply respects_bind; [done| |intros ?; by apply respects_ret].
    apply copyValues_evolves.
  - by apply respects_ret.
Qed.

Lemma call_all_evolves szero (ops : list Op) :
  respects (@evolves MPI_Comm ParOptScalar) (call_all szero ops).
Proof.
  induction ops as [|o ops IH]; cbn.
  - apply respects_ret, evolves_refl.
  - apply respects_bind; [apply evolves_trans|apply call_evolves|].
    intros _. exact IH.
Qed.

Lemma call_all_cons_inv szero (o : Op) (ops : list Op) s s' :
  call_all szero (o :: ops) s = Some (tt, s') ->
  exists s1, call szero o s = Some (tt, s1)
             /\ call_all szero ops s1 = Some (tt, s').
Proof.
  cbn. unfold bind. destruct (call szero o s) as [[[] s1]|]; [|done].
  eauto.
Qed.

(** *** Sizes: constructors, setter and getter *)

Lemma NoDup_four_distinct (l1 l2 l3 l4 : loc) :
  NoDup [l1; l2; l3; l4] ->
  l1 <> l2 /\ l1 <> l3 /\ l1 <> l4 /\ l2 <> l3 /\ l2 <> l4 /\ l3 <> l4.
Proof.
  intros Hnd.
  apply NoDup_cons in Hnd as [N1 Hnd].
  apply NoDup_cons in Hnd as [N2 Hnd].
  apply NoDup_cons in Hnd as [N3 _].
  apply not_elem_of_cons in N1 as [? N1].
  apply not_elem_of_cons in N1 as [? N1].
  apply not_elem_of_cons in N1 as [? _].
  apply not_elem_of_cons in N2 as [? N2].
  apply not_elem_of_cons in N2 as [? _].
  apply not_elem_of_cons in N3 as [? _].
  done.
Qed.

(** X1: the sizes given to the five-argument constructor are the ones
    [getProblemSizes] reads back, and the communicator-only constructor
    reads back as four zeros (outputs pointing to distinct live cells). *)
Theorem constructors_getProblemSizes_roundtrip (c : MPI_Comm)
    (nv nc nw nb : int) h l1 l2 l3 l4 :
  NoDup [l1; l2; l3; l4] ->
  is_Some (ints h !! l1) -> is_Some (ints h !! l2) ->
  is_Some (ints h !! l3) -> is_Some (ints h !! l4) ->
  (exists s',
      getProblemSizes (Ptr l1) (Ptr l2) (Ptr l3) (Ptr l4)
        {| this := ParOptProblem_sizes c nv nc nw nb; heap := h |}
      = Some (tt, s')
      /\ ints (heap s') !! l1 = Some nv /\ ints (heap s') !! l2 = Some nc
      /\ ints (heap s') !! l3 = Some nw /\ ints (heap s') !! l4 = Some nb)
  /\ (exists s',
      getProblemSizes (Ptr l1) (Ptr l2) (Ptr l3) (Ptr l4)
        {| this := ParOptProblem_comm c; heap := h |}
      = Some (tt, s')
      /\ ints (heap s') !! l1 = Some 0 /\ ints (heap s') !! l2 = Some 0
      /\ ints (heap s') !! l3 = Some 0 /\ ints (heap s') !! l4 = Some 0).
Proof.
  intros Hnd H1 H2 H3 H4.
  destruct (NoDup_four_distinct Hnd) as (?&?&?&?&?&?).
  split; rewrite getProblemSizes_run by done; cbn;
    (eexists; split; [reflexivity|]); cbn;
    repeat split; by simplify_map_eq.
Qed.

(** X2: [setProblemSizes] overwrites the whole descriptor.  The object it
    leaves is the one the five-argument constructor builds from the same
    communicator and sizes, so an earlier [setProblemSizes] (or the sizes
    given at construction) leaves no trace. *)
Theorem setProblemSizes_overwrites s (a b c d a' b' c' d' : int) :
  setProblemSizes a b c d s
  = Some (tt, {| this := ParOptProblem_sizes (comm (this s)) a b c d;
                 heap := heap s |})
  /\ bind (setProblemSizes a b c d) (fun _ => setProblemSizes a' b' c' d') s
     = setProblemSizes a' b' c' d' s.
Proof.
  split; [apply setProblemSizes_run|].
  unfold bind. by rewrite !setProblemSizes_run.
Qed.

(** X3: [getProblemSizes] stores in the order [nvars], [ncon], [nwcon],
    [nwblock].  When output pointers alias, a cell ends up with the field
    of the last pointer that points to it; cells no pointer points to keep
    their contents. *)
Theorem getProblemSizes_store_order s p1 p2 p3 p4 :
  usable_int_ptr (heap s) p1 -> usable_int_ptr (heap s) p2 ->
  usable_int_ptr (heap s) p3 -> usable_int_ptr (heap s) p4 ->
  exists s',
    getProblemSizes p1 p2 p3 p4 s = Some (tt, s')
    /\ forall l,
        (p4 = Ptr l -> ints (heap s') !! l = Some (nwblock (this s)))
        /\ (p4 <> Ptr l -> p3 = Ptr l ->
            ints (heap s') !! l = Some (nwcon (this s)))
        /\ (p4 <> Ptr l -> p3 <> Ptr l -> p2 = Ptr l ->
            ints (heap s') !! l = Some (ncon (this s)))
        /\ (p4 <> Ptr l -> p3 <> Ptr l -> p2 <> Ptr l -> p1 = Ptr l ->
            ints (heap s') !! l = Some (nvars (this s)))
        /\ (p4 <> Ptr l -> p3 <> Ptr l -> p2 <> Ptr l -> p1 <> Ptr l ->
            ints (heap s') !! l = ints (heap s) !! l).
Proof.
  intros H1 H2 H3 H4. rewrite getProblemSizes_run by done.
  eexists. split; [reflexivity|]. cbn. intros l.
  rewrite !lookup_written.
  destruct p1 as [|l1], p2 as [|l2], p3 as [|l3], p4 as [|l4];
    repeat case_decide; subst; repeat split; intros; congruence.
Qed.

(** X4: [getProblemSizes] is idempotent: a second call with the same
    pointers changes nothing any more, also when the pointers alias. *)
Theorem getProblemSizes_idempotent s p1 p2 p3 p4 :
  usable_int_ptr (heap s) p1 -> usable_int_ptr (heap s) p2 ->
  usable_int_ptr (heap s) p3 -> usable_int_ptr (heap s) p4 ->
  bind (getProblemSizes p1 p2 p3 p4)
       (fun _ => getProblemSizes p1 p2 p3 p4) s
  = getProblemSizes p1 p2 p3 p4 s.
Proof.
  intros H1 H2 H3 H4. unfold bind at 1.
  rewrite getProblemSizes_run by done.
  rewrite getProblemSizes_run
    by (apply usable_written with (h := heap s);
        auto 8 using written_is_Some).
  cbn. do 4 f_equal. apply map_eq. intros l.
  rewrite !lookup_written.
  destruct p1 as [|l1], p2 as [|l2], p3 as [|l3], p4 as [|l4];
    repeat case_decide; subst; congruence.
Qed.

(** X5: after any sequence of calls the descriptor holds the sizes of the
    last [setProblemSizes] of the sequence, and the sizes it started with if
    the sequence has none. *)
Theorem sizes_follow_last_setProblemSizes szero (ops : list Op) s s' :
  call_all szero ops s = Some (tt, s') ->
  sizes (this s') = sizes_after ops (sizes (this s)).
Proof.
  revert s. induction ops as [|o ops IH]; intros s Hrun.
  - inversion Hrun; subst. done.
  - apply call_all_cons_inv in Hrun as (s1 & Ho & Hrest).
    apply IH in Hrest. rewrite Hrest. clear IH Hrest.
    destruct (is_setProblemSizes o) eqn:Eo.
    + destruct o; try discriminate. cbn [call] in Ho.
      rewrite setProblemSizes_run in Ho. by inversion Ho; subst.
    + assert (Hs : sizes (this s1) = sizes (this s)).
      { eapply (preserves_call (@sizes MPI_Comm)); [|exact Ho].
        intros Hset. congruence. }
      rewrite Hs. destruct o; try discriminate; reflexivity.
Qed.

(** *** Invariants of arbitrary call sequences *)

(** X6: no sequence of calls touches a scalar array, creates or frees an
    [int] cell, or removes a vector; a vector that was live keeps its
    communicator, its size and its number of entries. *)
Theorem call_sequences_frame szero (ops : list Op) s s' :
  call_all szero ops s = Some (tt, s') ->
  scalars (heap s') = scalars (heap s)
  /\ dom (ints (heap s')) = dom (ints (heap s))
  /\ forall l v, vecs (heap s) !! l = Some v ->
       exists v', vecs (heap s') !! l = Some v'
                  /\ vcomm v' = vcomm v /\ vsize v' = vsize v
                  /\ length (vx v') = length (vx v).
Proof.
  intros Hrun. apply call_all_evolves in Hrun as (_ & Hs & Hi & Hold & _).
  auto.
Qed.

(** X7: if every live vector is bound to the communicator of the object,
    this is still so after any sequence of calls: the factory binds new
    vectors to it and nothing rebinds a vector or the object. *)
Theorem vectors_stay_on_comm szero (ops : list Op) s s' :
  vectors_on_comm s ->
  call_all szero ops s = Some (tt, s') ->
  vectors_on_comm s'.
Proof.
  intros Hinv Hrun.
  apply call_all_evolves in Hrun as (Hc & _ & _ & Hold & Hnew).
  intros l v' Hv'. rewrite Hc.
  destruct (vecs (heap s) !! l) as [v|] eqn:E.
  - destruct (Hold _ _ E) as (v'' & Hv'' & Hcm & _).
    rewrite <- (Hinv _ _ E). congruence.
  - eauto.
Qed.




(** *** The factory *)

Lemma createDesignVec_run szero s :
  createDesignVec szero s
  = Some (Ptr (fresh (dom (vecs (heap s)))),
          {| this := this s;
             heap := set_vecs
                       (<[fresh (dom (vecs (heap s))) :=
                            {| vcomm := comm (this s);
                               vsize := nvars (this s);
                               vx := replicate (Z.to_nat (nvars (this s)))
                                       szero |}]> (vecs (heap s)))
                       (heap s) |}).
Proof. reflexivity. Qed.

Lemma createConstraintVec_run szero s :
  createConstraintVec szero s
  = Some (Ptr (fresh (dom (vecs (heap s)))),
          {| this := this s;
             heap := set_vecs
                       (<[fresh (dom (vecs (heap s))) :=
                            {| vcomm := comm (this s);
                               vsize := nwcon (this s);
                               vx := replicate (Z.to_nat (nwcon (this s)))
                                       szero |}]> (vecs (heap s)))
                       (heap s) |}).
Proof. reflexivity. Qed.

Lemma fresh_not_live (m : gmap loc (ParOptVec MPI_Comm ParOptScalar)) :
  m !! fresh (dom m) = None.
Proof. apply not_elem_of_dom, is_fresh. Qed.

Lemma fresh_after_insert (m : gmap loc (ParOptVec MPI_Comm ParOptScalar))
    l v :
  fresh (dom (<[l := v]> m)) <> l /\ m !! fresh (dom (<[l := v]> m)) = None.
Proof.
  pose proof (fresh_not_live (<[l := v]> m)) as Hf.
  destruct (decide (fresh (dom (<[l := v]> m)) = l)) as [E|Hne].
  - rewrite E, lookup_insert_eq in Hf. done.
  - split; [done|]. by rewrite lookup_insert_ne in Hf.
Qed.

(** X9: the factory never hands out the same vector twice.  A design
    vector and a constraint vector created one after the other live at two
    different addresses, neither of which held a vector before, and have
    sizes [nvars] and [nwcon]. *)
Theorem factory_vectors_distinct szero s :
  exists la lb va vb s',
    bind (createDesignVec szero)
         (fun a => bind (createConstraintVec szero) (fun b => ret (a, b))) s
    = Some ((Ptr la, Ptr lb), s')
    /\ la <> lb
    /\ vecs (heap s) !! la = None /\ vecs (heap s) !! lb = None
    /\ vecs (heap s') !! la = Some va /\ vsize va = nvars (this s)
    /\ vecs (heap s') !! lb = Some vb /\ vsize vb = nwcon (this s).
Proof.
  unfold bind. rewrite createDesignVec_run, createConstraintVec_run. cbn.
  set (la := fresh (dom (vecs (heap s)))).
  set (va := {| vcomm := comm (this s); vsize := nvars (this s);
                vx := replicate (Z.to_nat (nvars (this s))) szero |}).
  destruct (fresh_after_insert (vecs (heap s)) la va) as [Hne Hnone].
  eexists la, _, va, _, _. split; [reflexivity|]. cbn.
  split; [done|]. split; [apply fresh_not_live|]. split; [exact Hnone|].
  split; [by rewrite lookup_insert_ne, lookup_insert_eq|].
  split; [done|]. split; [apply lookup_insert_eq|done].
Qed.

(** X10: the factory reads the sizes at the time of the call, and
    [setProblemSizes] does not resize vectors that exist.  A design vector
    created before a [setProblemSizes] keeps the old [nvars] as its size,
    one created after it has the new one. *)
Theorem factory_reads_current_sizes szero s (n b c d : int) :
  exists la lb va vb s',
    bind (createDesignVec szero)
      (fun pa => bind (setProblemSizes n b c d)
         (fun _ => bind (createDesignVec szero)
            (fun pb => ret (pa, pb)))) s
    = Some ((Ptr la, Ptr lb), s')
    /\ la <> lb
    /\ nvars (this s') = n
    /\ vecs (heap s') !! la = Some va
    /\ vsize va = nvars (this s)
    /\ length (vx va) = Z.to_nat (nvars (this s))
    /\ vecs (heap s') !! lb = Some vb
    /\ vsize vb = n
    /\ length (vx vb) = Z.to_nat n.
Proof.
  unfold bind. rewrite createDesignVec_run, setProblemSizes_run,
    createDesignVec_run. cbn.
  set (la := fresh (dom (vecs (heap s)))).
  set (va := {| vcomm := comm (this s); vsize := nvars (this s);
                vx := replicate (Z.to_nat (nvars (this s))) szero |}).
  destruct (fresh_after_insert (vecs (heap s)) la va) as [Hne Hnone].
  eexists la, _, va, _, _. split; [reflexivity|]. cbn.
  split; [done|]. split; [done|].
  split; [by rewrite lookup_insert_ne, lookup_insert_eq|].
  split; [done|]. split; [apply length_replicate|].
  split; [apply lookup_insert_eq|]. cbn.
  split; [done|apply length_replicate].
Qed.

(** X11: a vector from the factory can take a copy of any live design
    vector.  Creating a design vector and calling [applyHessianPrecon] with
    it as [out] succeeds with 0 when [in] is live and has [nvars] entries;
    afterwards the new vector holds the entries of [in], and [in] is
    unchanged. *)
Theorem copy_into_fresh_design_vec szero s (x z zw : ptr) (lin : loc)
    (vi : ParOptVec MPI_Comm ParOptScalar) :
  vecs (heap s) !! lin = Some vi ->
  length (vx vi) = Z.to_nat (nvars (this s)) ->
  exists lb vb s',
    bind (createDesignVec szero)
      (fun pb => bind (applyHessianPrecon x z zw (Ptr lin) pb)
         (fun r => ret (pb, r))) s
    = Some ((Ptr lb, 0), s')
    /\ vecs (heap s) !! lb = None
    /\ vecs (heap s') !! lb = Some vb
    /\ vx vb = vx vi
    /\ vecs (heap s') !! lin = Some vi.
Proof.
  intros Hin Hlen. unfold bind at 1. rewrite createDesignVec_run.
  set (lb := fresh (dom (vecs (heap s)))).
  assert (Hfresh : vecs (heap s) !! lb = None) by apply fresh_not_live.
  assert (Hne : lb <> lin) by congruence.
  unfold applyHessianPrecon, copyValues, bind, get_heap, put_heap, ret. cbn.
  rewrite lookup_insert_eq, lookup_insert_ne, Hin by done. cbn.
  rewrite copy_entries_same_length
    by (rewrite length_replicate; congruence).
  eexists lb, _, _. split; [reflexivity|]. cbn.
  split; [done|]. split; [apply lookup_insert_eq|]. cbn.
  split; [done|]. by rewrite !lookup_insert_ne.
Qed.

Lemma copy_entries_self (xs : list ParOptScalar) : copy_entries xs xs = xs.
Proof. by apply copy_entries_same_length. Qed.

Lemma getProblemSizes_keeps_vecs p1 p2 p3 p4 :
  respects (fun s s' => vecs (heap s') = vecs (heap s))
    (getProblemSizes (MPI_Comm := MPI_Comm) (ParOptScalar := ParOptScalar)
       p1 p2 p3 p4).
Proof.
  set (R := fun s s' : State => vecs (heap s') = vecs (heap s)).
  assert (Hr : forall s, R s s) by done.
  assert (Ht : forall s1 s2 s3, R s1 s2 -> R s2 s3 -> R s1 s3).
  { unfold R. congruence. }
  assert (Hst : forall p (v : int),
             respects R (store_int (MPI_Comm := MPI_Comm)
                           (ParOptScalar := ParOptScalar) p v)).
  { intros [|l] v s u s'; [done|].
    unfold store_int, bind, get_heap, put_heap. cbn.
    destruct (ints (heap s) !! l); [|done].
    intros Hrun. inversion Hrun; subst. done. }
  unfold getProblemSizes.
  repeat (apply respects_bind; [done| |intros ?]);
    (apply respects_if_nonnull; [done|]);
    (apply respects_bind; [done| by apply respects_get_this |intros ?]);
    apply Hst.
Qed.

Lemma call_vector_count szero (o : Op) s s1 :
  call szero o s = Some (tt, s1) ->
  size (vecs (heap s1))
  = (size (vecs (heap s)) + factory_calls [o])%nat.
Proof.
  destruct o; cbn [call factory_calls]; unfold discard, bind.
  - rewrite createDesignVec_run. intros Hrun. inversion Hrun; subst. cbn.
    rewrite map_size_insert_None by apply fresh_not_live. lia.
  - rewrite createConstraintVec_run. intros Hrun. inversion Hrun; subst.
    cbn. rewrite map_size_insert_None by apply fresh_not_live. lia.
  - intros Hrun. inversion Hrun; subst. lia.
  - rewrite setProblemSizes_run. intros Hrun. inversion Hrun; subst.
    cbn. lia.
  - intros Hrun. apply getProblemSizes_keeps_vecs in Hrun.
    rewrite Hrun. lia.
  - intros Hrun. inversion Hrun; subst. lia.
  - intros Hrun. inversion Hrun; subst. lia.
  - unfold applyHessianPrecon, copyValues, bind, get_heap, put_heap, ret.
    destruct vout as [|lo]; [done|]. destruct vin as [|li]; [done|]. cbn.
    destruct (vecs (heap s) !! lo) as [vo|] eqn:Eo; [|done].
    destruct (vecs (heap s) !! li) as [vl|]; [|done].
    intros Hrun. inversion Hrun; subst. cbn.
    rewrite map_size_insert_Some by eauto. lia.
  - intros Hrun. inversion Hrun; subst. lia.
Qed.

(** X13: the factory is the only thing that allocates vectors.  Over any
    sequence of calls the number of live vectors grows by exactly the
    number of [createDesignVec] and [createConstraintVec] calls in it. *)
Theorem live_vectors_count_factory_calls szero (ops : list Op) s s' :
  call_all szero ops s = Some (tt, s') ->
  size (vecs (heap s'))
  = (size (vecs (heap s)) + factory_calls ops)%nat.
Proof.
  revert s. induction ops as [|o ops IH]; intros s Hrun.
  - inversion Hrun; subst. cbn. lia.
  - apply call_all_cons_inv in Hrun as (s1 & Ho & Hrest).
    apply IH in Hrest. apply call_vector_count in Ho.
    rewrite Hrest, Ho. destruct o; cbn; lia.
Qed.

(** X14: [applyHessianPrecon] with [in] and [out] the same live vector
    returns 0 and leaves the state exactly as it was. *)
Theorem applyHessianPrecon_aliased_noop s (x z zw : ptr) (l : loc) :
  is_Some (vecs (heap s) !! l) ->
  applyHessianPrecon x z zw (Ptr l) (Ptr l) s = Some (0, s).
Proof.
  intros [v Hv].
  unfold applyHessianPrecon, copyValues, bind, get_heap, put_heap, ret. cbn.
  rewrite Hv. cbn. rewrite copy_entries_self.
  destruct s as [t [hi hs hv]]. cbn in *. unfold set_vecs. cbn.
  do 3 f_equal. destruct v as [vc vn vxs]. cbn. f_equal.
  by apply insert_id.
Qed.

(** X12: [applyHessianPrecon] calls [copyValues] on [out] without a null
    check: it can only return when [out] points to a live vector, and then
    it returns 0. *)
Theorem applyHessianPrecon_needs_live_out s (x z zw vin vout : ptr)
    (r : int) s' :
  applyHessianPrecon x z zw vin vout s = Some (r, s') ->
  r = 0 /\ live_vec_ptr (heap s) vout.
Proof.
  unfold applyHessianPrecon, copyValues, bind, get_heap, put_heap, ret, fail.
  destruct vout as [|lo]; [done|]. destruct vin as [|li]; [done|]. cbn.
  destruct (vecs (heap s) !! lo) as [vo|] eqn:Eo; [|done].
  destruct (vecs (heap s) !! li) as [vl|]; [|done].
  intros Hrun. inversion Hrun; subst. eauto.
Qed.

End FurtherProperties.

(** * Concrete instances *)

Lemma setProblemSizes_getProblemSizes_roundtrip_witness :
  exists s',
    bind (setProblemSizes 5 2 3 1)
         (fun _ => getProblemSizes (Ptr 1) (Ptr 2) (Ptr 3) (Ptr 4))
         example_state
    = Some (tt, s')
    /\ ints (heap s') !! 1%positive = Some 5
    /\ ints (heap s') !! 2%positive = Some 2
    /\ ints (heap s') !! 3%positive = Some 3
    /\ ints (heap s') !! 4%positive = Some 1.
Proof.
  apply setProblemSizes_getProblemSizes_roundtrip.
  - compute_done.
  - by eexists.
  - by eexists.
  - by eexists.
  - by eexists.
Defined.

Lemma getProblemSizes_null_tolerant_witness :
  exists s',
    getProblemSizes NULL (Ptr 2) NULL (Ptr 2) example_state = Some (tt, s')
    /\ this s' = this example_state
    /\ scalars (heap s') = scalars (heap example_state)
    /\ vecs (heap s') = vecs (heap example_state)
    /\ ints (heap s')
       = written (Ptr 2) (nwblock (this example_state))
           (written NULL (nwcon (this example_state))
              (written (Ptr 2) (ncon (this example_state))
                 (written NULL (nvars (this example_state))
                    (ints (heap example_state)))))
    /\ (forall l, NULL <> Ptr l -> Ptr 2 <> Ptr l ->
                  NULL <> Ptr l -> Ptr 2 <> Ptr l ->
          ints (heap s') !! l = ints (heap example_state) !! l).
Proof.
  apply getProblemSizes_null_tolerant.
  - exact I.
  - by eexists.
  - exact I.
  - by eexists.
Defined.

Lemma HessianPrecon_default_identity_witness :
  setUpHessianPrecon (Ptr 1) NULL NULL example_state
  = Some (0, example_state)
  /\ exists s' vo',
      applyHessianPrecon (Ptr 1) NULL NULL (Ptr 1) (Ptr 2) example_state
      = Some (0, s')
      /\ vecs (heap s') !! 2%positive = Some vo'
      /\ vx vo' = [10; 20]
      /\ vcomm vo' = 7%nat /\ vsize vo' = 2
      /\ (exists vi', vecs (heap s') !! 1%positive = Some vi'
                      /\ vx vi' = [10; 20])
      /\ (forall l, l <> 2%positive ->
            vecs (heap s') !! l = vecs (heap example_state) !! l)
      /\ this s' = this example_state
      /\ ints (heap s') = ints (heap example_state)
      /\ scalars (heap s') = scalars (heap example_state).
Proof.
  apply (@HessianPrecon_default_identity nat Z example_state
           (Ptr 1) NULL NULL 1%positive 2%positive
           {| vcomm := 7%nat; vsize := 2; vx := [10; 20] |}
           {| vcomm := 7%nat; vsize := 2; vx := [0; 0] |}).
  - reflexivity.
  - reflexivity.
  - reflexivity.
Defined.

Lemma getMPIComm_fixed_at_construction_witness :
  exists s',
    call_all 0 (OpSetProblemSizes 3 1 0 0 :: example_calls)
      {| this := ParOptProblem_comm 7%nat; heap := example_heap |}
    = Some (tt, s')
    /\ getMPIComm s' = Some (7%nat, s').
Proof.
  eexists. split.
  - vm_compute. reflexivity.
  - apply (@getMPIComm_fixed_at_construction nat Z 0 7%nat 0 0 0 0
             example_heap (OpSetProblemSizes 3 1 0 0 :: example_calls)).
    left. vm_compute. reflexivity.
Defined.

Lemma sizes_zero_until_set_witness :
  exists s',
    call_all 0 example_calls
      {| this := ParOptProblem_comm 7%nat; heap := example_heap |}
    = Some (tt, s')
    /\ sizes (ParOptProblem_comm 7%nat) = (0, 0, 0, 0)
    /\ nvars (this s') = 0 /\ ncon (this s') = 0
    /\ nwcon (this s') = 0 /\ nwblock (this s') = 0.
Proof.
  eexists. split.
  - vm_compute. reflexivity.
  - apply (@sizes_zero_until_set nat Z 0 7%nat example_heap example_calls).
    + reflexivity.
    + vm_compute. reflexivity.
Defined.

Lemma constructors_getProblemSizes_roundtrip_witness :
  (exists s',
      getProblemSizes (Ptr 1) (Ptr 2) (Ptr 3) (Ptr 4)
        {| this := ParOptProblem_sizes 7%nat 5 2 3 1; heap := example_heap |}
      = Some (tt, s')
      /\ ints (heap s') !! 1%positive = Some 5
      /\ ints (heap s') !! 2%positive = Some 2
      /\ ints (heap s') !! 3%positive = Some 3
      /\ ints (heap s') !! 4%positive = Some 1)
  /\ (exists s',
      getProblemSizes (Ptr 1) (Ptr 2) (Ptr 3) (Ptr 4)
        {| this := ParOptProblem_comm 7%nat; heap := example_heap |}
      = Some (tt, s')
      /\ ints (heap s') !! 1%positive = Some 0
      /\ ints (heap s') !! 2%positive = Some 0
      /\ ints (heap s') !! 3%positive = Some 0
      /\ ints (heap s') !! 4%positive = Some 0).
Proof.
  apply (@constructors_getProblemSizes_roundtrip nat Z 7%nat 5 2 3 1
           example_heap 1%positive 2%positive 3%positive 4%positive).
  - compute_done.
  - by eexists.
  - by eexists.
  - by eexists.
  - by eexists.
Defined.

Lemma getProblemSizes_store_order_witness :
  exists s',
    getProblemSizes (Ptr 1) (Ptr 1) (Ptr 1) (Ptr 1) example_state
    = Some (tt, s')
    /\ forall l,
        (Ptr 1 = Ptr l ->
         ints (heap s') !! l = Some (nwblock (this example_state)))
        /\ (Ptr 1 <> Ptr l -> Ptr 1 = Ptr l ->
            ints (heap s') !! l = Some (nwcon (this example_state)))
        /\ (Ptr 1 <> Ptr l -> Ptr 1 <> Ptr l -> Ptr 1 = Ptr l ->
            ints (heap s') !! l = Some (ncon (this example_state)))
        /\ (Ptr 1 <> Ptr l -> Ptr 1 <> Ptr l -> Ptr 1 <> Ptr l ->
            Ptr 1 = Ptr l ->
            ints (heap s') !! l = Some (nvars (this example_state)))
        /\ (Ptr 1 <> Ptr l -> Ptr 1 <> Ptr l -> Ptr 1 <> Ptr l ->
            Ptr 1 <> Ptr l ->
            ints (heap s') !! l = ints (heap example_state) !! l).
Proof.
  apply getProblemSizes_store_order; by eexists.
Defined.

Lemma getProblemSizes_idempotent_witness :
  bind (getProblemSizes (Ptr 1) NULL (Ptr 1) (Ptr 2))
       (fun _ => getProblemSizes (Ptr 1) NULL (Ptr 1) (Ptr 2)) example_state
  = getProblemSizes (Ptr 1) NULL (Ptr 1) (Ptr 2) example_state.
Proof.
  apply getProblemSizes_idempotent.
  - by eexists.
  - exact I.
  - by eexists.
  - by eexists.
Defined.

Lemma sizes_follow_last_setProblemSizes_witness :
  exists s',
    call_all 0 (OpSetProblemSizes 3 1 0 0 :: OpCreateDesignVec
                :: OpSetProblemSizes 9 8 7 6 :: example_calls) example_state
    = Some (tt, s')
    /\ sizes (this s')
       = sizes_after (OpSetProblemSizes 3 1 0 0 :: OpCreateDesignVec
                      :: OpSetProblemSizes 9 8 7 6 :: example_calls)
           (sizes (this example_state)).
Proof.
  eexists. split.
  - vm_compute. reflexivity.
  - apply (@sizes_follow_last_setProblemSizes nat Z 0
             (OpSetProblemSizes 3 1 0 0 :: OpCreateDesignVec
              :: OpSetProblemSizes 9 8 7 6 :: example_calls) example_state).
    vm_compute. reflexivity.
Defined.

Lemma call_sequences_frame_witness :
  exists s',
    call_all 0 example_calls example_state = Some (tt, s')
    /\ scalars (heap s') = scalars (heap example_state)
    /\ dom (ints (heap s')) = dom (ints (heap example_state))
    /\ forall l v, vecs (heap example_state) !! l = Some v ->
         exists v', vecs (heap s') !! l = Some v'
                    /\ vcomm v' = vcomm v /\ vsize v' = vsize v
                    /\ length (vx v') = length (vx v).
Proof.
  eexists. split.
  - vm_compute. reflexivity.
  - apply (@call_sequences_frame nat Z 0 example_calls example_state).
    vm_compute. reflexivity.
Defined.

Lemma vectors_stay_on_comm_witness :
  vectors_on_comm example_state
  /\ exists s',
       call_all 0 example_calls example_state = Some (tt, s')
       /\ vectors_on_comm s'.
Proof.
  assert (Hinv : vectors_on_comm example_state).
  { intros l v. unfold example_state, example_heap. cbn.
    destruct (decide (l = 1%positive)) as [->|N1].
    - rewrite lookup_insert_eq. by intros [= <-].
    - rewrite lookup_insert_ne by done.
      destruct (decide (l = 2%positive)) as [->|N2].
      + rewrite lookup_insert_eq. by intros [= <-].
      + rewrite lookup_insert_ne by done. by rewrite lookup_empty. }
  split; [exact Hinv|].
  eexists. split.
  - vm_compute. reflexivity.
  - eapply (@vectors_stay_on_comm nat Z 0 example_calls example_state);
      [exact Hinv|].
    vm_compute. reflexivity.
Defined.


Lemma live_vectors_count_factory_calls_witness :
  exists s',
    call_all 0 example_calls example_state = Some (tt, s')
    /\ size (vecs (heap s'))
       = (size (vecs (heap example_state)) + factory_calls example_calls)%nat.
Proof.
  eexists. split.
  - vm_compute. reflexivity.
  - apply (@live_vectors_count_factory_calls nat Z 0 example_calls
             example_state).
    vm_compute. reflexivity.
Defined.

Lemma copy_into_fresh_design_vec_witness :
  exists lb vb s',
    bind (createDesignVec 0)
      (fun pb => bind (applyHessianPrecon (Ptr 1) NULL NULL (Ptr 1) pb)
         (fun r => ret (pb, r))) example_state
    = Some ((Ptr lb, 0), s')
    /\ vecs (heap example_state) !! lb = None
    /\ vecs (heap s') !! lb = Some vb
    /\ vx vb = [10; 20]
    /\ vecs (heap s') !! 1%positive
       = Some {| vcomm := 7%nat; vsize := 2; vx := [10; 20] |}.
Proof.
  apply (@copy_into_fresh_design_vec nat Z 0 example_state
           (Ptr 1) NULL NULL 1%positive
           {| vcomm := 7%nat; vsize := 2; vx := [10; 20] |}).
  - reflexivity.
  - reflexivity.
Defined.

Lemma applyHessianPrecon_needs_live_out_witness :
  exists s',
    applyHessianPrecon (Ptr 1) NULL NULL (Ptr 1) (Ptr 2) example_state
    = Some (0, s')
    /\ 0 = 0 /\ live_vec_ptr (heap example_state) (Ptr 2).
Proof.
  eexists. split.
  - vm_compute. reflexivity.
  - eapply (@applyHessianPrecon_needs_live_out nat Z example_state
             (Ptr 1) NULL NULL (Ptr 1) (Ptr 2) 0).
    vm_compute. reflexivity.
Defined.

Lemma applyHessianPrecon_aliased_noop_witness :
  applyHessianPrecon (Ptr 1) NULL NULL (Ptr 1) (Ptr 1) example_state
  = Some (0, example_state).
Proof.
  apply applyHessianPrecon_aliased_noop. by eexists.
Defined.
